(** * Rank engine and what-if projector of the leaderboard

    Shallow embedding of [computeRanks] (src/App.js) and of
    [calculateWhatIf] (utils/calculateWhatIf.js).  Scores are the
    integers the data model promises, written as [Z]. *)

From Stdlib Require Import ZArith Lia String Ascii.
From stdpp Require Import base list gmap sorting strings.

Open Scope Z_scope.

(** ** Data model *)

Record player := mkPlayer {
  email : string;
  score : Z;
  name : string
}.

(** An answer record as the projector reads it; [None] is JS [null]. *)
Record answer := mkAnswer {
  official_answer : option string;
  user_answer : option string
}.

(** JS truthiness of a nullable string: [null] and the empty string are
    falsy. *)
Definition truthy (o : option string) : bool :=
  match o with
  | None => false
  | Some EmptyString => false
  | Some _ => true
  end.

(** ** The rank engine: [computeRanks] *)

Record rankEntry := mkRankEntry {
  rank : Z;
  tieCount : Z
}.

(** A JS [Map] as the association list of its entries, in insertion order. *)
Definition jsMap (V : Type) := list (Z * V).

(** [Map.prototype.set]: an existing key keeps its position, a new key is
    appended. *)
Fixpoint map_set {V} (k : Z) (v : V) (m : jsMap V) : jsMap V :=
  match m with
  | [] => [(k, v)]
  | (k', v') :: m' => if decide (k = k') then (k, v) :: m' else (k', v') :: map_set k v m'
  end.

(** [Map.prototype.get] ([None] is [undefined]). *)
Fixpoint map_get {V} (k : Z) (m : jsMap V) : option V :=
  match m with
  | [] => None
  | (k', v') :: m' => if decide (k = k') then Some v' else map_get k m'
  end.

(** [players.forEach(p => scoreCounts[p.score] = (scoreCounts[p.score] || 0) + 1)] *)
Definition count_step (scoreCounts : gmap Z Z) (p : player) : gmap Z Z :=
  <[score p := default 0 (scoreCounts !! score p) + 1]> scoreCounts.

Definition scoreCounts_of (players : list player) : gmap Z Z :=
  foldl count_step ∅ players.

(** [[...new Set(xs)]]: first occurrences, in order. *)
Definition set_add (s : list Z) (x : Z) : list Z :=
  if decide (x ∈ s) then s else s ++ [x].

Definition set_spread (xs : list Z) : list Z := foldl set_add [] xs.

(** The comparator [(a, b) => b - a]: [a] may precede [b] when it returns
    a non-positive number. *)
Definition cmp_desc (a b : Z) : Z := b - a.

Definition desc_le (a b : Z) : Prop := cmp_desc a b <= 0.

#[global] Instance desc_le_dec : RelDecision desc_le.
Proof. intros a b. unfold desc_le. apply _. Defined.

(** [Array.prototype.sort] with a consistent comparator; its result is
    determined by the comparator (see [sort_desc_unique] below). *)
Definition sort_desc (xs : list Z) : list Z := merge_sort desc_le xs.

Definition uniqueScores_of (players : list player) : list Z :=
  sort_desc (set_spread (map score players)).

(** One step of [uniqueScores.forEach]: the state is [(rankMap, currentRank)]. *)
Definition rank_step (scoreCounts : gmap Z Z) (st : jsMap rankEntry * Z) (s : Z)
  : jsMap rankEntry * Z :=
  let '(rankMap, currentRank) := st in
  let count := default 0 (scoreCounts !! s) in
  (map_set s (mkRankEntry currentRank count) rankMap, currentRank + count).

Definition computeRanks (players : list player) : jsMap rankEntry :=
  let scoreCounts := scoreCounts_of players in
  let uniqueScores := uniqueScores_of players in
  fst (foldl (rank_step scoreCounts) ([], 1) uniqueScores).

(** ** The what-if projector: [calculateWhatIf] *)

Record whatIf := mkWhatIf {
  unansweredCount : Z;
  potentialPoints : Z;
  currentScore : Z;
  bestCaseScore : Z;
  worstCaseScore : Z;
  currentRank : Z;
  bestCaseRank : Z;
  worstCaseRank : Z;
  totalPlayers : Z
}.

(** Outcome of a JS call: it throws, or it returns a value. *)
Inductive outcome (A : Type) :=
| Throw
| Ret (a : A).
Arguments Throw {A}.
Arguments Ret {A} a.

(** [!a.official_answer && a.user_answer] *)
Definition unanswered (a : answer) : bool :=
  negb (truthy (official_answer a)) && truthy (user_answer a).

(** [for (const p of players) if (p.email !== selectedPlayer.email && p.score > bound) rank++] *)
Definition rank_loop (sp : player) (bound : Z) (players : list player) : Z :=
  foldl (fun r p => if negb (String.eqb (email p) (email sp)) && (bound <? score p)
                    then r + 1 else r) 1 players.

(** The worst-case loop: [otherBestScore = p.score + potentialPoints]. *)
Definition worst_loop (sp : player) (potential worst : Z) (players : list player) : Z :=
  foldl (fun r p => if negb (String.eqb (email p) (email sp))
                    then (if worst <? score p + potential then r + 1 else r)
                    else r) 1 players.

(** [selectedPlayer] and [myAnswers] may be [null] ([None]); [players] is
    read through [players.length], which throws on [null]. *)
Definition calculateWhatIf (selectedPlayer : option player)
    (players : option (list player)) (myAnswers : option (list answer))
    : outcome (option whatIf) :=
  match selectedPlayer with
  | None => Ret None
  | Some sp =>
    match myAnswers with
    | None => Ret None
    | Some answers =>
      match players with
      | None => Throw
      | Some ps =>
        if Nat.eqb (length ps) 0 then Ret None else
        let unansweredQuestions := List.filter unanswered answers in
        if Nat.eqb (length unansweredQuestions) 0 then Ret None else
        let potential := Z.of_nat (length unansweredQuestions) in
        let current := score sp in
        let best := current + potential in
        let worst := current in
        Ret (Some (mkWhatIf
          (Z.of_nat (length unansweredQuestions))
          potential current best worst
          (rank_loop sp current ps)
          (rank_loop sp best ps)
          (worst_loop sp potential worst ps)
          (Z.of_nat (length ps))))
      end
    end
  end.

(** ** Spec-side notions *)

(** Number of players whose score satisfies [f]. *)
Fixpoint count_where (f : Z -> bool) (players : list player) : Z :=
  match players with
  | [] => 0
  | p :: ps => (if f (score p) then 1 else 0) + count_where f ps
  end.

(** Number of players other than [sp] (by identity) satisfying [f]. *)
Definition count_others (sp : player) (f : player -> bool) (players : list player) : Z :=
  Z.of_nat (length (List.filter (fun p => negb (String.eqb (email p) (email sp)) && f p) players)).

(** The entries the rank walk appends, from running rank [r] on. *)
Fixpoint rank_entries (counts : gmap Z Z) (r : Z) (scores : list Z) : jsMap rankEntry :=
  match scores with
  | [] => []
  | s :: rest =>
    let c := default 0 (counts !! s) in
    (s, mkRankEntry r c) :: rank_entries counts (r + c) rest
  end.

Fixpoint sumZ (l : list Z) : Z :=
  match l with
  | [] => 0
  | x :: l' => x + sumZ l'
  end.

(** A nullable string that is [null] or empty. *)
Definition empty_or_null (o : option string) : bool :=
  match o with
  | None => true
  | Some str => String.eqb str EmptyString
  end.

(** The spec's unresolved record: no official answer yet, but a user answer. *)
Definition unresolved (a : answer) : bool :=
  empty_or_null (official_answer a) && negb (empty_or_null (user_answer a)).

(** The spec's null-returning cases of the projector, for a players list. *)
Definition null_case (sp : option player) (ps : list player) (ans : option (list answer)) : Prop :=
  sp = None \/ ans = None \/ ps = [] \/
  exists answers, ans = Some answers /\ Forall (fun a => unresolved a = false) answers.

Definition pl (e : string) (s : Z) : player := mkPlayer e s e.
Definition open_answer : answer := mkAnswer None (Some "Yes"%string).

(** ** The live-update channel: [ws.onmessage] and [handleWebSocketMessage] *)

Record trend := mkTrend {
  direction : string;
  change : Z
}.

Record question := mkQuestion {
  question_text : string;
  q_answer : option string;
  (** [parseInt(q.updated)]: the backend sends millisecond timestamps as
      decimal strings; the model carries the parsed number. *)
  updated : Z
}.

Record event := mkEvent {
  event_type : string;
  event_timestamp : option Z
}.

(** A parsed update message; a missing or [null] field is [None].  Arrays
    and objects are truthy in JS even when empty. *)
Record message := mkMessage {
  msg_type : option string;
  msg_scores : option (list player);
  msg_questions : option (list question);
  msg_trends : option (gmap string trend);
  msg_events : option (list event)
}.

(** The React state the handler writes. *)
Record view := mkView {
  players_st : list player;
  questions_st : list question;
  trends_st : gmap string trend;
  events_st : list event
}.

Definition handleWebSocketMessage (data : message) (st : view) : view :=
  mkView
    (match msg_scores data with Some s => s | None => players_st st end)
    (match msg_questions data with Some q => q | None => questions_st st end)
    (match msg_trends data with Some t => t | None => trends_st st end)
    (match msg_events data with
     | Some (e :: es) => take 20 ((e :: es) ++ events_st st)
     | _ => events_st st
     end).

(** [ws.onmessage]: [None] is a payload [JSON.parse] rejects (caught and
    logged); only messages of type ["update"] reach the handler. *)
Definition onmessage (raw : option message) (st : view) : view :=
  match raw with
  | None => st
  | Some data =>
    if decide (msg_type data = Some "update"%string) then handleWebSocketMessage data st else st
  end.

Definition onmessages (raws : list (option message)) (st : view) : view :=
  foldl (fun s r => onmessage r s) st raws.

(** ** Leaderboard rows and the selected player's hero card *)

(** [rankInfo?.rank ?? idx + 1] *)
Definition row_rank (rankMap : jsMap rankEntry) (p : player) (idx : Z) : Z :=
  match map_get (score p) rankMap with Some e => rank e | None => idx + 1 end.

(** [rankInfo?.tieCount ?? 1] *)
Definition row_tieCount (rankMap : jsMap rankEntry) (p : player) : Z :=
  match map_get (score p) rankMap with Some e => tieCount e | None => 1 end.

(** [tieCount > 1 ? `T-${rank}` : rank] *)
Inductive rankLabel :=
| TiedRank (r : Z)
| PlainRank (r : Z).

Definition row_label (players : list player) (p : player) (idx : Z) : rankLabel :=
  let rankMap := computeRanks players in
  if 1 <? row_tieCount rankMap p then TiedRank (row_rank rankMap p idx)
  else PlainRank (row_rank rankMap p idx).

(** [players.find((p) => p.email === selectedEmail)]; [selectedEmail] is
    [localStorage.getItem(...)], possibly [null], which no email equals. *)
Definition find_selected (players : list player) (selectedEmail : option string) : option player :=
  match selectedEmail with
  | None => None
  | Some e => List.find (fun p => String.eqb (email p) e) players
  end.

Definition selectedRankInfo (players : list player) (selectedEmail : option string)
  : option rankEntry :=
  match find_selected players selectedEmail with
  | Some p => map_get (score p) (computeRanks players)
  | None => None
  end.

(** [selectedRankInfo?.rank ?? null] *)
Definition selectedRank (players : list player) (selectedEmail : option string) : option Z :=
  option_map rank (selectedRankInfo players selectedEmail).

(** [selectedRankInfo?.tieCount ?? 1] *)
Definition selectedTieCount (players : list player) (selectedEmail : option string) : Z :=
  match selectedRankInfo players selectedEmail with Some e => tieCount e | None => 1 end.

(** ** Latest questions: [sortedQuestions] *)

(** [Array.prototype.sort] with [(a, b) => parseInt(b.updated) - parseInt(a.updated)]:
    a stable insertion sort; [x] goes before the first [y] it must precede
    (comparator positive for [(y, x)]), so equal timestamps keep their order. *)
Fixpoint insert_updated (x : question) (l : list question) : list question :=
  match l with
  | [] => [x]
  | y :: l' => if 0 <? updated x - updated y then x :: y :: l' else y :: insert_updated x l'
  end.

Definition sort_updated (qs : list question) : list question :=
  foldl (fun acc q => insert_updated q acc) [] qs.

Definition sortedQuestions (latestQuestions : list question) : list question :=
  take 10 (sort_updated (List.filter (fun q => truthy (q_answer q)) latestQuestions)).

(** The order [sortedQuestions] produces: newest first. *)
Definition newer_or_same (a b : question) : Prop := updated b <= updated a.

(** ** [formatTimeAgo] *)

(** The strings it builds: [""], ["just now"], [`${n}m ago`], [`${n}h ago`]
    and [`${n}d ago`]. *)
Inductive timeAgo :=
| NoTime
| JustNow
| MinutesAgo (n : Z)
| HoursAgo (n : Z)
| DaysAgo (n : Z).

(** [now] is [Date.now()]; the timestamp is [None] when falsy ([null],
    [undefined], [""]), otherwise the value [parseInt] reads from it.
    [Math.floor] of a quotient of integers is [Z.div]. *)
Definition formatTimeAgo (now : Z) (timestamp : option Z) : timeAgo :=
  match timestamp with
  | None => NoTime
  | Some t =>
    let diff := (now - t) / 1000 in
    if diff <? 60 then JustNow
    else if diff <? 3600 then MinutesAgo (diff / 60)
    else if diff <? 86400 then HoursAgo (diff / 3600)
    else DaysAgo (diff / 86400)
  end.

(** The age in seconds a label stands for (its lower bound). *)
Definition timeAgo_seconds (l : timeAgo) : Z :=
  match l with
  | NoTime | JustNow => 0
  | MinutesAgo n => 60 * n
  | HoursAgo n => 3600 * n
  | DaysAgo n => 86400 * n
  end.

(** ** PKCE helpers of [useAuth] *)

(** One hexadecimal digit, lower case as [Number.prototype.toString(16)]. *)
Definition hex_digit (n : Z) : ascii :=
  if n <? 10 then ascii_of_nat (Z.to_nat (48 + n)) else ascii_of_nat (Z.to_nat (87 + n)).

(** [byte.toString(16)] for a byte [0 <= b < 256] (an element of a
    [Uint8Array]): no leading zero. *)
Definition byte_toString16 (b : Z) : list ascii :=
  if b <? 16 then [hex_digit b] else [hex_digit (b / 16); hex_digit (b mod 16)].

(** [s.padStart(2, "0")] *)
Definition padStart2 (s : list ascii) : list ascii :=
  repeat "0"%char (2 - length s) ++ s.

(** [Array.from(array, (byte) => byte.toString(16).padStart(2, "0")).join("")],
    the body of [generateRandomString] after [crypto.getRandomValues]. *)
Definition hex_join (bytes : list Z) : string :=
  string_of_list_ascii (concat (map (fun b => padStart2 (byte_toString16 b)) bytes)).

(** Reading a hex digit back, and a hex string back into bytes (the inverse
    of [hex_join], used to show it loses nothing). *)
Definition hex_val (c : ascii) : Z :=
  let n := Z.of_nat (nat_of_ascii c) in if n <? 58 then n - 48 else n - 87.

Fixpoint decode_hex (l : list ascii) : list Z :=
  match l with
  | c1 :: c2 :: rest => (16 * hex_val c1 + hex_val c2) :: decode_hex rest
  | _ => []
  end.

Definition hex_alphabet : list ascii := list_ascii_of_string "0123456789abcdef".

(** [s.replace(/a/g, b)] for one literal character [a]. *)
Fixpoint replace_all (a b : ascii) (s : string) : string :=
  match s with
  | EmptyString => EmptyString
  | String c s' => String (if Ascii.eqb c a then b else c) (replace_all a b s')
  end.

(** [s.replace(/a/g, "")] *)
Fixpoint remove_all (a : ascii) (s : string) : string :=
  match s with
  | EmptyString => EmptyString
  | String c s' => if Ascii.eqb c a then remove_all a s' else String c (remove_all a s')
  end.

(** The tail of [base64UrlEncode]:
    [btoa(binary).replace(/\+/g, "-").replace(/\//g, "_").replace(/=/g, "")]. *)
Definition base64_to_url (b64 : string) : string :=
  remove_all "="%char (replace_all "/"%char "_"%char (replace_all "+"%char "-"%char b64)).

(** [parseJwt]'s [base64Url.replace(/-/g, "+").replace(/_/g, "/")]. *)
Definition url_to_base64 (b64url : string) : string :=
  replace_all "_"%char "/"%char (replace_all "-"%char "+"%char b64url).

Fixpoint has_char (a : ascii) (s : string) : bool :=
  match s with
  | EmptyString => false
  | String c s' => Ascii.eqb c a || has_char a s'
  end.

(** ** Loading the selected player's answers *)

(** A [fetch] response: its status and the [answers] field of its JSON body
    ([body = None]: [response.json()] rejects; [Some None]: the body has no
    truthy [answers] field). *)
Record response := mkResponse {
  status : Z;
  body : option (option (list answer))
}.

(** [fetchUserAnswers]: [None] for the input is a [fetch] that rejects.
    It resolves to [null] ([Ret None]) or to the body ([Ret (Some _)]). *)
Definition fetchUserAnswers (resp : option response) : outcome (option (option (list answer))) :=
  match resp with
  | None => Throw
  | Some r =>
    if (200 <=? status r) && (status r <=? 299) then
      match body r with None => Throw | Some d => Ret (Some d) end
    else if status r =? 404 then Ret None
    else Throw
  end.

(** The effect on [selectedEmail]: [myAnswers] after it settles.
    [setMyAnswers(data?.answers || null)], [null] in the [catch]. *)
Definition loadAnswers (selectedEmail : option string) (resp : option response)
  : option (list answer) :=
  if negb (truthy selectedEmail) then None else
  match fetchUserAnswers resp with
  | Throw => None
  | Ret None => None
  | Ret (Some d) => d
  end.

(** The what-if card of the app: [calculateWhatIf(selectedPlayer, players, myAnswers)]. *)
Definition whatIf_card (players : list player) (selectedEmail : option string)
    (resp : option response) : outcome (option whatIf) :=
  calculateWhatIf (find_selected players selectedEmail) (Some players)
    (loadAnswers selectedEmail resp).

(** ** Local storage *)

Definition STORAGE_KEYS : list string :=
  ["prop_sheet_access_token"; "prop_sheet_id_token"; "prop_sheet_refresh_token";
   "prop_sheet_code_verifier"; "prop_sheet_user"]%string.

(** [Object.values(STORAGE_KEYS).forEach((key) => localStorage.removeItem(key))] *)
Definition clearAuthStorage (ls : gmap string string) : gmap string string :=
  foldl (fun m k => delete k m) ls STORAGE_KEYS.

(** [localStorage.setItem("selectedEmail", email)] *)
Definition handlePlayerSelect (e : string) (ls : gmap string string) : gmap string string :=
  <["selectedEmail" := e]> ls.

(** [localStorage.removeItem("selectedEmail")] *)
Definition handleClearSelection (ls : gmap string string) : gmap string string :=
  delete "selectedEmail"%string ls.

(** The initial [selectedEmail] on (re)load: [localStorage.getItem("selectedEmail")]. *)
Definition initialSelectedEmail (ls : gmap string string) : option string :=
  ls !! "selectedEmail"%string.

(** Sample inputs: update messages, questions and an answers response. *)
Definition ev (n : Z) : event := mkEvent "answer" (Some n).
Definition upd (evs : list event) : message :=
  mkMessage (Some "update"%string) None None None (Some evs).
Definition st0 : view := mkView [] [] ∅ (map ev [1; 2; 3]).
Definition qn (n : Z) : question := mkQuestion "q" (Some "Yes"%string) n.
Definition answers_ok : response := mkResponse 200 (Some (Some [open_answer])).

(** The test suite's worst-case tie: the other player's 4 + 1 ties 5. *)
Definition tie_me : player := pl "me" 5.
Definition tie_players : list player := [tie_me; pl "other" 4].
Definition tie_result : whatIf := mkWhatIf 1 1 5 6 5 1 1 1 2.

Example computeRanks_10_8_8_5 :
  computeRanks [pl "a" 10; pl "b" 8; pl "c" 8; pl "d" 5] =
  [(10, mkRankEntry 1 1); (8, mkRankEntry 2 2); (5, mkRankEntry 4 1)].
Proof. vm_compute. reflexivity. Qed.

Example whatIf_ghost :
  calculateWhatIf (Some (pl "ghost" 5)) (Some [pl "o1" 10; pl "o2" 8]) (Some [open_answer])
  = Ret (Some (mkWhatIf 1 1 5 6 5 3 3 3 2)).
Proof. vm_compute. reflexivity. Qed.

(** ** Lemmas on the rank engine *)

Module RankEngine.

Lemma count_where_nonneg f (players : list player) : 0 <= count_where f players.
Proof. induction players as [|p ps IH]; simpl; [lia|]. destruct (f (score p)); lia. Qed.

Lemma count_where_ext f g (players : list player) :
  (forall p, p ∈ players -> f (score p) = g (score p)) ->
  count_where f players = count_where g players.
Proof.
  induction players as [|p ps IH]; intros H; simpl; [done|].
  rewrite (H p) by set_solver. rewrite IH; [done|]. intros q Hq. apply H. set_solver.
Qed.

Lemma count_where_disj f g (players : list player) :
  (forall x, f x = true -> g x = false) ->
  count_where (fun x => f x || g x) players = count_where f players + count_where g players.
Proof.
  intros Hd. induction players as [|p ps IH]; simpl; [done|].
  rewrite IH. specialize (Hd (score p)).
  destruct (f (score p)), (g (score p)); simpl; try lia.
Qed.

Lemma count_where_true (players : list player) :
  count_where (fun _ => true) players = Z.of_nat (length players).
Proof. induction players as [|p ps IH]; simpl; lia. Qed.

(** The counting object: every score maps to its number of players. *)
Lemma foldl_count_lookup (players : list player) (m : gmap Z Z) s :
  foldl count_step m players !! s =
  if decide (count_where (Z.eqb s) players = 0) then m !! s
  else Some (default 0 (m !! s) + count_where (Z.eqb s) players).
Proof.
  revert m. induction players as [|p ps IH]; intros m; simpl; [done|].
  rewrite IH. unfold count_step.
  pose proof (count_where_nonneg (Z.eqb s) ps).
  destruct (Z.eqb_spec s (score p)) as [->|Hne].
  - rewrite lookup_insert_eq.
    repeat case_decide; simpl; try lia; f_equal; lia.
  - rewrite lookup_insert_ne by congruence.
    repeat case_decide; simpl; try lia; try done; f_equal; lia.
Qed.

Lemma scoreCounts_lookup (players : list player) s :
  scoreCounts_of players !! s =
  if decide (count_where (Z.eqb s) players = 0) then None
  else Some (count_where (Z.eqb s) players).
Proof.
  unfold scoreCounts_of. rewrite foldl_count_lookup, lookup_empty. done.
Qed.

Lemma count_where_pos_iff (players : list player) s :
  count_where (Z.eqb s) players <> 0 <-> s ∈ map score players.
Proof.
  induction players as [|p ps IH]; simpl.
  - split; [lia|]. intros H. inversion H.
  - pose proof (count_where_nonneg (Z.eqb s) ps).
    rewrite elem_of_cons. destruct (Z.eqb_spec s (score p)); split; intros H'.
    + by left.
    + lia.
    + right. apply IH. lia.
    + destruct H' as [H'|H']; [done|]. apply IH in H'. lia.
Qed.

Lemma scoreCounts_default (players : list player) s :
  default 0 (scoreCounts_of players !! s) = count_where (Z.eqb s) players.
Proof. rewrite scoreCounts_lookup. case_decide; simpl; lia. Qed.

(** [[...new Set(xs)]] *)
Lemma set_add_in (acc : list Z) y : y ∈ acc -> set_add acc y = acc.
Proof. intros H. unfold set_add. by rewrite decide_True. Qed.

Lemma set_add_notin (acc : list Z) y : y ∉ acc -> set_add acc y = acc ++ [y].
Proof. intros H. unfold set_add. by rewrite decide_False. Qed.

Lemma foldl_set_add_spec (acc xs : list Z) :
  NoDup acc ->
  NoDup (foldl set_add acc xs) /\ (forall x, x ∈ foldl set_add acc xs <-> x ∈ acc \/ x ∈ xs).
Proof.
  revert acc. induction xs as [|y ys IH]; intros acc Hnd; simpl.
  - split; [done|]. intros x. set_solver.
  - destruct (decide (y ∈ acc)) as [Hy|Hy].
    + rewrite set_add_in by done. destruct (IH acc Hnd) as [H1 H2]. split; [done|]. intros x. rewrite H2. set_solver.
    + rewrite set_add_notin by done. assert (NoDup (acc ++ [y])) as Hnd'.
      { apply NoDup_app. split; [done|]. split; [set_solver|]. apply NoDup_singleton. }
      destruct (IH _ Hnd') as [H1 H2]. split; [done|]. intros x. rewrite H2. set_solver.
Qed.

Lemma set_spread_NoDup xs : NoDup (set_spread xs).
Proof. apply foldl_set_add_spec, NoDup_nil_2. Qed.

Lemma set_spread_elem xs x : x ∈ set_spread xs <-> x ∈ xs.
Proof.
  unfold set_spread. rewrite (proj2 (foldl_set_add_spec [] xs (NoDup_nil_2))). set_solver.
Qed.

(** The comparator [(a, b) => b - a] is a total order. *)
#[global] Instance desc_le_trans : Transitive desc_le.
Proof. intros a b c. unfold desc_le, cmp_desc. lia. Qed.
#[global] Instance desc_le_antisymm : AntiSymm (=) desc_le.
Proof. intros a b. unfold desc_le, cmp_desc. lia. Qed.
#[global] Instance desc_le_total : Total desc_le.
Proof. intros a b. unfold desc_le, cmp_desc. lia. Qed.

Lemma sort_desc_sorted xs : StronglySorted desc_le (sort_desc xs).
Proof. apply StronglySorted_merge_sort; apply _. Qed.

Lemma sort_desc_perm xs : sort_desc xs ≡ₚ xs.
Proof. apply merge_sort_Permutation. Qed.

(** Any two sorts of the same multiset agree: the result of [sort] does not
    depend on the algorithm or the input order. *)
Lemma sort_desc_unique xs ys : xs ≡ₚ ys -> sort_desc xs = sort_desc ys.
Proof.
  intros H. apply (StronglySorted_unique desc_le); [apply sort_desc_sorted..|].
  by rewrite !sort_desc_perm.
Qed.

Lemma strict_of_sorted (l : list Z) :
  StronglySorted desc_le l -> NoDup l -> StronglySorted Z.gt l.
Proof.
  induction 1 as [|x l Hs IH Hall]; intros Hnd; constructor.
  - apply IH. apply NoDup_cons in Hnd as [_ ?]. done.
  - apply NoDup_cons in Hnd as [Hx _]. rewrite Forall_forall in Hall |- *.
    intros y Hy. specialize (Hall y Hy). unfold desc_le, cmp_desc in Hall.
    assert (y <> x) by (intros ->; done). lia.
Qed.

Lemma uniqueScores_NoDup (players : list player) : NoDup (uniqueScores_of players).
Proof.
  unfold uniqueScores_of. rewrite sort_desc_perm. apply set_spread_NoDup.
Qed.

Lemma uniqueScores_elem (players : list player) x :
  x ∈ uniqueScores_of players <-> x ∈ map score players.
Proof. unfold uniqueScores_of. rewrite sort_desc_perm. apply set_spread_elem. Qed.

Lemma uniqueScores_strict (players : list player) :
  StronglySorted Z.gt (uniqueScores_of players).
Proof. apply strict_of_sorted; [apply sort_desc_sorted|apply uniqueScores_NoDup]. Qed.

Lemma count_where_false (players : list player) : count_where (fun _ => false) players = 0.
Proof. induction players; simpl; lia. Qed.

(** Summing per-score counts over a duplicate-free list of scores counts
    the players whose score is in that list. *)
Lemma sum_counts (f : Z -> bool) (players : list player) (L : list Z) :
  NoDup L ->
  sumZ (map (fun x => if f x then count_where (Z.eqb x) players else 0) L) =
  count_where (fun y => f y && bool_decide (y ∈ L)) players.
Proof.
  induction L as [|x L IH]; intros Hnd; simpl.
  - symmetry. rewrite <- (count_where_false players). apply count_where_ext.
    intros p _. apply andb_false_r.
  - apply NoDup_cons in Hnd as [Hx Hnd]. rewrite IH by done.
    rewrite (count_where_ext (fun y => f y && bool_decide (y ∈ x :: L))
               (fun y => (f y && Z.eqb x y) || (f y && bool_decide (y ∈ L))))
      by (intros p _; destruct (f (score p)); simpl; [|done];
          destruct (Z.eqb_spec x (score p)); simpl; repeat case_bool_decide; set_solver).
    rewrite count_where_disj.
    2:{ intros y Hy. apply andb_true_iff in Hy as [_ Hy]. apply Z.eqb_eq in Hy as <-.
        rewrite bool_decide_eq_false_2 by done. apply andb_false_r. }
    f_equal. destruct (f x) eqn:Hf.
    + apply count_where_ext. intros p _.
      destruct (Z.eqb_spec x (score p)) as [<-|]; [by rewrite Hf|by rewrite andb_false_r].
    + rewrite <- (count_where_false players). apply count_where_ext. intros p _.
      destruct (Z.eqb_spec x (score p)) as [<-|]; [by rewrite Hf|by rewrite andb_false_r].
Qed.

Lemma map_get_app {V} k (m1 m2 : jsMap V) :
  map_get k (m1 ++ m2) = match map_get k m1 with Some v => Some v | None => map_get k m2 end.
Proof.
  induction m1 as [|[k' v'] m1 IH]; simpl; [done|]. case_decide; [done|apply IH].
Qed.

Lemma map_set_new {V} k (v : V) (m : jsMap V) :
  map_get k m = None -> map_set k v m = m ++ [(k, v)].
Proof.
  induction m as [|[k' v'] m IH]; simpl; [done|].
  case_decide as Hk; [discriminate|]. intros Hm. by rewrite IH.
Qed.

(** The [forEach] walk over distinct scores appends one entry per score. *)
Lemma rank_walk (counts : gmap Z Z) (L : list Z) (m : jsMap rankEntry) r :
  NoDup L -> (forall s, s ∈ L -> map_get s m = None) ->
  foldl (rank_step counts) (m, r) L =
  (m ++ rank_entries counts r L, r + sumZ (map (fun s => default 0 (counts !! s)) L)).
Proof.
  revert m r. induction L as [|x L IH]; intros m r Hnd Hfresh; simpl.
  - rewrite app_nil_r. f_equal. lia.
  - apply NoDup_cons in Hnd as [Hx Hnd].
    rewrite map_set_new by (apply Hfresh; set_solver).
    rewrite IH; [|done|].
    + rewrite <- app_assoc. simpl. f_equal. lia.
    + intros s Hs. rewrite map_get_app, Hfresh by set_solver. simpl.
      case_decide; [subst; done|done].
Qed.

Lemma computeRanks_entries (players : list player) :
  computeRanks players = rank_entries (scoreCounts_of players) 1 (uniqueScores_of players).
Proof.
  unfold computeRanks. rewrite rank_walk; [done|apply uniqueScores_NoDup|done].
Qed.

Lemma rank_entries_keys (counts : gmap Z Z) r (L : list Z) :
  map fst (rank_entries counts r L) = L.
Proof. revert r. induction L as [|x L IH]; intros r; simpl; [done|]. by rewrite IH. Qed.

Lemma rank_entries_ties (counts : gmap Z Z) r (L : list Z) :
  map (fun e => tieCount (snd e)) (rank_entries counts r L) =
  map (fun s => default 0 (counts !! s)) L.
Proof. revert r. induction L as [|x L IH]; intros r; simpl; [done|]. by rewrite IH. Qed.

Lemma rank_entries_none (counts : gmap Z Z) r (L : list Z) s :
  s ∉ L -> map_get s (rank_entries counts r L) = None.
Proof.
  revert r. induction L as [|x L IH]; intros r Hs; simpl; [done|].
  case_decide; [set_solver|]. apply IH. set_solver.
Qed.

Lemma sum_above_zero (counts : gmap Z Z) (L : list Z) s :
  (forall y, y ∈ L -> y < s) ->
  sumZ (map (fun x => if s <? x then default 0 (counts !! x) else 0) L) = 0.
Proof.
  induction L as [|x L IH]; intros H; simpl; [done|].
  rewrite IH by set_solver. assert (x < s) by set_solver.
  destruct (Z.ltb_spec s x); lia.
Qed.

(** In a strictly descending walk, a score's rank is the running rank plus
    the counts of all higher scores. *)
Lemma rank_entries_lookup (counts : gmap Z Z) r (L : list Z) s :
  StronglySorted Z.gt L -> s ∈ L ->
  map_get s (rank_entries counts r L) =
  Some (mkRankEntry (r + sumZ (map (fun x => if s <? x then default 0 (counts !! x) else 0) L))
                    (default 0 (counts !! s))).
Proof.
  revert r. induction L as [|x L IH]; intros r Hs Hin; [set_solver|].
  apply StronglySorted_inv in Hs as [Hs Hall]. rewrite Forall_forall in Hall.
  simpl. case_decide as Heq.
  - subst x. rewrite sum_above_zero by (intros y Hy; specialize (Hall y Hy); lia).
    rewrite Z.ltb_irrefl. do 2 f_equal. lia.
  - assert (s ∈ L) as HsL by set_solver.
    rewrite IH by done. specialize (Hall s HsL).
    destruct (Z.ltb_spec s x); [|lia]. do 2 f_equal. lia.
Qed.

Lemma computeRanks_lookup (players : list player) s :
  map_get s (computeRanks players) =
  if bool_decide (s ∈ map score players)
  then Some (mkRankEntry (1 + count_where (fun x => s <? x) players)
                         (count_where (Z.eqb s) players))
  else None.
Proof.
  rewrite computeRanks_entries. case_bool_decide as Hs.
  - rewrite rank_entries_lookup;
      [|apply uniqueScores_strict|by apply uniqueScores_elem].
    rewrite scoreCounts_default. do 3 f_equal.
    rewrite (map_ext _ (fun x => if s <? x then count_where (Z.eqb x) players else 0))
      by (intros x; by rewrite scoreCounts_default).
    rewrite (sum_counts (fun x => s <? x)) by apply uniqueScores_NoDup.
    apply count_where_ext. intros p Hp.
    rewrite bool_decide_eq_true_2; [apply andb_true_r|].
    apply uniqueScores_elem, list_elem_of_In, in_map, list_elem_of_In. done.
  - apply rank_entries_none. by rewrite uniqueScores_elem.
Qed.

Lemma computeRanks_keys (players : list player) :
  map fst (computeRanks players) = uniqueScores_of players.
Proof. rewrite computeRanks_entries. apply rank_entries_keys. Qed.

Lemma count_where_filter f (players : list player) :
  count_where f players = Z.of_nat (length (filter (fun x => f x = true) (map score players))).
Proof.
  induction players as [|p ps IH]; simpl; [done|].
  rewrite filter_cons. destruct (f (score p)); case_decide; simpl; try done; lia.
Qed.

Lemma count_where_perm f (ps1 ps2 : list player) :
  map score ps1 ≡ₚ map score ps2 -> count_where f ps1 = count_where f ps2.
Proof. intros H. rewrite !count_where_filter. by rewrite H. Qed.

Lemma singleton_of_NoDup (L : list Z) s :
  NoDup L -> (forall x, x ∈ L <-> x = s) -> L = [s].
Proof.
  intros Hnd Hel. destruct L as [|a [|b L]].
  - exfalso. by apply (not_elem_of_nil s), Hel.
  - f_equal. apply Hel. set_solver.
  - exfalso. apply NoDup_cons in Hnd as [Hab _].
    assert (a = s) by (apply Hel; set_solver). assert (b = s) by (apply Hel; set_solver).
    subst. set_solver.
Qed.

End RankEngine.

(** ** The rank engine's claims *)

Import RankEngine.

(** C1: [computeRanks] is standard competition ranking.  Its keys are the
    distinct scores in strictly descending order; each score maps to rank
    1 plus the number of players with a strictly higher score (the running
    rank after the counts of all higher scores) and to tieCount the number
    of players at that score; any other key is absent.  On the scores
    [10, 8, 8, 5] the map is exactly {10:(1,1), 8:(2,2), 5:(4,1)}. *)
Theorem computeRanks_standard_competition (players : list player) :
  StronglySorted Z.gt (map fst (computeRanks players)) /\
  (forall s, s ∈ map fst (computeRanks players) <-> s ∈ map score players) /\
  (forall s, map_get s (computeRanks players) =
     if bool_decide (s ∈ map score players)
     then Some (mkRankEntry (1 + count_where (fun x => s <? x) players)
                            (count_where (Z.eqb s) players))
     else None) /\
  computeRanks [pl "a" 10; pl "b" 8; pl "c" 8; pl "d" 5] =
  [(10, mkRankEntry 1 1); (8, mkRankEntry 2 2); (5, mkRankEntry 4 1)].
Proof.
  rewrite computeRanks_keys. split; [apply uniqueScores_strict|].
  split; [apply uniqueScores_elem|]. split; [apply computeRanks_lookup|].
  vm_compute. reflexivity.
Qed.

(** C7: the tieCounts of all entries of [computeRanks] add up to the
    number of players. *)
Theorem computeRanks_tieCount_sum (players : list player) :
  sumZ (map (fun e => tieCount (snd e)) (computeRanks players)) = Z.of_nat (length players).
Proof.
  rewrite computeRanks_entries, rank_entries_ties.
  rewrite (map_ext _ (fun x => count_where (Z.eqb x) players))
    by (intros x; by rewrite scoreCounts_default).
  pose proof (sum_counts (fun _ => true) players _ (uniqueScores_NoDup players)) as Hs.
  simpl in Hs. rewrite Hs.
  rewrite <- count_where_true. apply count_where_ext. intros p Hp.
  apply bool_decide_eq_true_2.
  apply uniqueScores_elem, list_elem_of_In, in_map, list_elem_of_In. done.
Qed.

(** C8: no players give the empty map; n >= 1 players that all have the
    same score s give the single entry s -> (rank 1, tieCount n). *)
Theorem computeRanks_empty_and_all_tied :
  computeRanks [] = [] /\
  forall (players : list player) s,
    players <> [] -> Forall (fun p => score p = s) players ->
    computeRanks players = [(s, mkRankEntry 1 (Z.of_nat (length players)))].
Proof.
  split; [reflexivity|]. intros players s Hne Hall.
  rewrite Forall_forall in Hall.
  assert (uniqueScores_of players = [s]) as HL.
  { apply singleton_of_NoDup; [apply uniqueScores_NoDup|]. intros x.
    rewrite uniqueScores_elem. split.
    - intros Hx. apply list_elem_of_In, in_map_iff in Hx as (p & <- & Hp).
      apply Hall, list_elem_of_In, Hp.
    - intros ->. destruct players as [|p ps]; [done|].
      rewrite <- (Hall p) by set_solver. simpl. set_solver. }
  rewrite computeRanks_entries, HL. simpl. rewrite scoreCounts_default.
  do 3 f_equal. rewrite <- count_where_true. apply count_where_ext.
  intros p Hp. rewrite (Hall p Hp). apply Z.eqb_refl.
Qed.

(** C10: [computeRanks] depends only on the multiset of scores.  Two player
    lists whose score lists are permutations of each other give the same
    map; this covers lists that are permutations of each other and lists
    that differ only in identity or display name. *)
Theorem computeRanks_score_multiset (ps1 ps2 : list player) :
  map score ps1 ≡ₚ map score ps2 -> computeRanks ps1 = computeRanks ps2.
Proof.
  intros Hperm. rewrite !computeRanks_entries.
  assert (scoreCounts_of ps1 = scoreCounts_of ps2) as ->.
  { apply map_eq. intros s. rewrite !scoreCounts_lookup.
    by rewrite (count_where_perm _ _ _ Hperm). }
  assert (uniqueScores_of ps1 = uniqueScores_of ps2) as ->; [|done].
  apply sort_desc_unique, NoDup_Permutation; [apply set_spread_NoDup..|].
  intros x. rewrite !set_spread_elem. by rewrite Hperm.
Qed.

(** ** Lemmas on the what-if projector *)

Module WhatIf.

Lemma unanswered_unresolved a : unanswered a = unresolved a.
Proof.
  destruct a as [[[|c o]|] [[|d u]|]]; reflexivity.
Qed.

Lemma unanswered_none (answers : list answer) :
  length (List.filter unanswered answers) = 0%nat <->
  Forall (fun a => unresolved a = false) answers.
Proof.
  induction answers as [|a l IH]; simpl; [split; [constructor|done]|].
  rewrite Forall_cons, <- unanswered_unresolved.
  destruct (unanswered a); simpl; [split; [lia|intros [? _]; discriminate]|].
  rewrite IH. tauto.
Qed.

Lemma foldl_count (g : player -> bool) (ps : list player) r :
  foldl (fun r p => if g p then r + 1 else r) r ps = r + Z.of_nat (length (List.filter g ps)).
Proof.
  revert r. induction ps as [|p ps IH]; intros r; simpl; [lia|].
  rewrite IH. destruct (g p); simpl; lia.
Qed.

(** Each comparison loop is 1 plus a count of the other players. *)
Lemma rank_loop_count (sp : player) bound (ps : list player) :
  rank_loop sp bound ps = 1 + count_others sp (fun p => bound <? score p) ps.
Proof. unfold rank_loop, count_others. by rewrite foldl_count. Qed.

Lemma worst_fold (sp : player) potential worst (ps : list player) r :
  foldl (fun r p => if negb (String.eqb (email p) (email sp))
                    then (if worst <? score p + potential then r + 1 else r)
                    else r) r ps =
  r + count_others sp (fun p => worst <? score p + potential) ps.
Proof.
  unfold count_others. revert r.
  induction ps as [|p ps IH]; intros r; simpl; [lia|].
  rewrite IH. destruct (negb _), (_ <? _); simpl; lia.
Qed.

Lemma worst_loop_count (sp : player) potential worst (ps : list player) :
  worst_loop sp potential worst ps =
  1 + count_others sp (fun p => worst <? score p + potential) ps.
Proof. apply worst_fold. Qed.

Lemma count_others_mono (sp : player) f g (ps : list player) :
  (forall p, f p = true -> g p = true) ->
  count_others sp f ps <= count_others sp g ps.
Proof.
  intros Hfg. unfold count_others. induction ps as [|p ps IH]; simpl; [lia|].
  specialize (Hfg p). destruct (f p), (g p); simpl;
    rewrite ?andb_true_r, ?andb_false_r; destruct (String.eqb (email p) (email sp));
    simpl; try lia.
Qed.

Lemma count_others_nonneg (sp : player) f (ps : list player) : 0 <= count_others sp f ps.
Proof. unfold count_others. lia. Qed.

(** At most every player other than [sp] is counted. *)
Lemma count_others_all (sp : player) f (ps : list player) :
  count_others sp f ps <= count_others sp (fun _ => true) ps.
Proof. apply count_others_mono. done. Qed.

Lemma count_others_len (sp : player) (ps : list player) :
  count_others sp (fun _ => true) ps <= Z.of_nat (length ps) /\
  (email sp ∈ map email ps -> count_others sp (fun _ => true) ps < Z.of_nat (length ps)).
Proof.
  unfold count_others. induction ps as [|p ps IH]; simpl.
  - split; [lia|]. intros H. inversion H.
  - rewrite andb_true_r. destruct IH as [IH1 IH2].
    destruct (String.eqb_spec (email p) (email sp)) as [He|He]; simpl.
    + split; [lia|]. intros _. lia.
    + split; [lia|]. intros Hin. apply elem_of_cons in Hin as [Hin|Hin]; [congruence|].
      specialize (IH2 Hin). lia.
Qed.

Lemma calculateWhatIf_result (sp : player) (ps : list player) ans r :
  calculateWhatIf (Some sp) (Some ps) ans = Ret (Some r) ->
  exists answers, ans = Some answers /\ ps <> [] /\
  let k := Z.of_nat (length (List.filter unanswered answers)) in
  0 < k /\
  r = mkWhatIf k k (score sp) (score sp + k) (score sp)
        (rank_loop sp (score sp) ps) (rank_loop sp (score sp + k) ps)
        (worst_loop sp k (score sp) ps) (Z.of_nat (length ps)).
Proof.
  destruct ans as [answers|]; simpl; [|discriminate].
  destruct (Nat.eqb_spec (length ps) 0) as [|Hl]; [discriminate|].
  destruct (Nat.eqb_spec (length (List.filter unanswered answers)) 0) as [|Hk]; [discriminate|].
  intros [= <-]. exists answers. split; [done|]. split; [intros ->; done|]. simpl. split; [lia|done].
Qed.

(** The null cases, and no exception for a players list. *)
Lemma calculateWhatIf_cases (sp : option player) (ps : list player) ans :
  (calculateWhatIf sp (Some ps) ans = Ret None <-> null_case sp ps ans) /\
  (calculateWhatIf sp (Some ps) ans = Ret None \/
   exists r, calculateWhatIf sp (Some ps) ans = Ret (Some r)).
Proof.
  unfold null_case. destruct sp as [sp|]; [|simpl; split; [split; auto|auto]].
  destruct ans as [answers|]; [|simpl; split; [split; auto|auto]].
  simpl. destruct (Nat.eqb_spec (length ps) 0) as [Hl|Hl].
  { apply nil_length_inv in Hl. split; [split; auto|auto]. }
  destruct (Nat.eqb_spec (length (List.filter unanswered answers)) 0) as [Hk|Hk].
  { apply unanswered_none in Hk. split; [split; [intros _; eauto 10|done]|auto]. }
  split; [|eauto]. split; [discriminate|].
  intros [?|[?|[->|(answers' & [= <-] & Hall)]]]; try discriminate; [done|].
  by apply unanswered_none in Hall.
Qed.

End WhatIf.

(** ** The what-if projector's claims *)

Import WhatIf.

(** C2: [calculateWhatIf] on a players list returns [null] exactly when the
    selected player is [null], the answers are [null], the players list is
    empty, or no answer record is unresolved (each has a non-empty official
    answer or an empty user answer); on every other input it returns a
    non-null result. *)
Theorem calculateWhatIf_null_iff (sp : option player) (ps : list player)
    (ans : option (list answer)) :
  (calculateWhatIf sp (Some ps) ans = Ret None <-> null_case sp ps ans) /\
  (~ null_case sp ps ans -> exists r, calculateWhatIf sp (Some ps) ans = Ret (Some r)).
Proof.
  destruct (calculateWhatIf_cases sp ps ans) as [Hiff Hout].
  split; [done|]. intros Hn. destruct Hout as [Hnull|Hr]; [|done].
  exfalso. apply Hn, Hiff, Hnull.
Qed.

(** C3: on a non-null result, each rank is 1 plus the number of players
    with an identity other than the selected player's that are strictly
    ahead: current score above currentScore, current score above
    bestCaseScore, and score plus potentialPoints above worstCaseScore.
    Equality never counts. *)
Theorem calculateWhatIf_rank_counts (sp : player) (ps : list player)
    (ans : option (list answer)) (r : whatIf) :
  calculateWhatIf (Some sp) (Some ps) ans = Ret (Some r) ->
  currentRank r = 1 + count_others sp (fun p => currentScore r <? score p) ps /\
  bestCaseRank r = 1 + count_others sp (fun p => bestCaseScore r <? score p) ps /\
  worstCaseRank r =
    1 + count_others sp (fun p => worstCaseScore r <? score p + potentialPoints r) ps.
Proof.
  intros H. apply calculateWhatIf_result in H as (answers & _ & _ & _ & ->). simpl.
  rewrite !rank_loop_count, worst_loop_count. done.
Qed.

(** C4: on a non-null result, potentialPoints and unansweredCount are the
    number of unresolved records (official answer empty or null, user
    answer non-empty), currentScore and worstCaseScore are the selected
    player's score, and bestCaseScore is that score plus potentialPoints. *)
Theorem calculateWhatIf_scores (sp : player) (ps : list player)
    (answers : list answer) (r : whatIf) :
  calculateWhatIf (Some sp) (Some ps) (Some answers) = Ret (Some r) ->
  potentialPoints r = Z.of_nat (length (List.filter unresolved answers)) /\
  unansweredCount r = potentialPoints r /\
  currentScore r = score sp /\
  bestCaseScore r = score sp + potentialPoints r /\
  worstCaseScore r = currentScore r.
Proof.
  intros H. apply calculateWhatIf_result in H as (answers' & [= <-] & _ & _ & ->). simpl.
  rewrite (List.filter_ext _ _ unanswered_unresolved). repeat split.
Qed.

(** C5: on a non-null result, bestCaseRank <= currentRank <= worstCaseRank. *)
Theorem calculateWhatIf_rank_order (sp : player) (ps : list player)
    (ans : option (list answer)) (r : whatIf) :
  calculateWhatIf (Some sp) (Some ps) ans = Ret (Some r) ->
  bestCaseRank r <= currentRank r <= worstCaseRank r.
Proof.
  intros H. apply calculateWhatIf_result in H as (answers & _ & _ & Hk & ->). simpl.
  rewrite !rank_loop_count, worst_loop_count.
  set (k := Z.of_nat (length (List.filter unanswered answers))) in *.
  split; apply Z.add_le_mono_l, count_others_mono; intros p Hp;
    apply Z.ltb_lt; apply Z.ltb_lt in Hp; lia.
Qed.

(** C6 as stated fails: a selected player missing from the list is ranked
    against every listed player, so its rank can exceed the player count
    (the test suite's ghost player: two players, currentRank 3). *)
Lemma calculateWhatIf_rank_bound_fails :
  ~ (forall (sp : player) (ps : list player) (ans : option (list answer)) (r : whatIf),
       calculateWhatIf (Some sp) (Some ps) ans = Ret (Some r) ->
       totalPlayers r = Z.of_nat (length ps) /\
       1 <= currentRank r <= totalPlayers r /\
       1 <= bestCaseRank r <= totalPlayers r /\
       1 <= worstCaseRank r <= totalPlayers r).
Proof.
  intros H.
  destruct (H (pl "ghost" 5) [pl "o1" 10; pl "o2" 8] (Some [open_answer])
              (mkWhatIf 1 1 5 6 5 3 3 3 2)) as (_ & [_ Hc] & _).
  - vm_compute. reflexivity.
  - simpl in Hc. lia.
Qed.

(** C6 (amended): on a non-null result, totalPlayers is the length of the
    players list and each rank is at least 1 and at most 1 plus the number
    of players whose identity differs from the selected player's.  So each
    rank is at most totalPlayers when the selected identity is in the list,
    and at most totalPlayers + 1 when it is not. *)
Theorem calculateWhatIf_rank_bounds (sp : player) (ps : list player)
    (ans : option (list answer)) (r : whatIf) :
  calculateWhatIf (Some sp) (Some ps) ans = Ret (Some r) ->
  totalPlayers r = Z.of_nat (length ps) /\
  Forall (fun k => 1 <= k <= 1 + count_others sp (fun _ => true) ps)
    [currentRank r; bestCaseRank r; worstCaseRank r] /\
  (email sp ∈ map email ps ->
   Forall (fun k => k <= totalPlayers r) [currentRank r; bestCaseRank r; worstCaseRank r]) /\
  Forall (fun k => k <= totalPlayers r + 1) [currentRank r; bestCaseRank r; worstCaseRank r].
Proof.
  intros H. apply calculateWhatIf_result in H as (answers & _ & _ & _ & ->). simpl.
  rewrite !rank_loop_count, worst_loop_count.
  destruct (count_others_len sp ps) as [Hle Hlt].
  pose proof (count_others_all sp (fun p => score sp <? score p) ps).
  pose proof (count_others_all sp
    (fun p => score sp + Z.of_nat (length (List.filter unanswered answers)) <? score p) ps).
  pose proof (count_others_all sp
    (fun p => score sp <? score p + Z.of_nat (length (List.filter unanswered answers))) ps).
  pose proof (count_others_nonneg sp (fun p => score sp <? score p) ps).
  pose proof (count_others_nonneg sp
    (fun p => score sp + Z.of_nat (length (List.filter unanswered answers)) <? score p) ps).
  pose proof (count_others_nonneg sp
    (fun p => score sp <? score p + Z.of_nat (length (List.filter unanswered answers))) ps).
  split; [done|]. split; [repeat constructor; lia|]. split.
  - intros Hin. specialize (Hlt Hin). repeat constructor; lia.
  - repeat constructor; lia.
Qed.

(** C9: both functions are total on inputs of the declared shapes.  Every
    count the rank walk reads from [scoreCounts] is defined (no
    [undefined] flows into a rank), and [calculateWhatIf] on a players
    list never throws: it returns [null] only in the spec's null cases. *)
Theorem ranks_and_whatIf_total :
  (forall (players : list player) s, s ∈ uniqueScores_of players ->
     scoreCounts_of players !! s = Some (count_where (Z.eqb s) players)) /\
  (forall sp (ps : list player) ans,
     calculateWhatIf sp (Some ps) ans <> Throw /\
     (calculateWhatIf sp (Some ps) ans = Ret None -> null_case sp ps ans)).
Proof.
  split.
  - intros players s Hs. rewrite scoreCounts_lookup.
    apply uniqueScores_elem, count_where_pos_iff in Hs. by rewrite decide_False.
  - intros sp ps ans. destruct (calculateWhatIf_cases sp ps ans) as [Hiff Hout].
    split; [|apply Hiff]. destruct Hout as [-> | [r ->]]; discriminate.
Qed.

(** ** Witnesses: the claims' hypotheses hold on concrete inputs *)

Lemma calculateWhatIf_rank_counts_witness :
  calculateWhatIf (Some tie_me) (Some tie_players) (Some [open_answer]) = Ret (Some tie_result) /\
  currentRank tie_result =
    1 + count_others tie_me (fun p => currentScore tie_result <? score p) tie_players /\
  bestCaseRank tie_result =
    1 + count_others tie_me (fun p => bestCaseScore tie_result <? score p) tie_players /\
  worstCaseRank tie_result =
    1 + count_others tie_me
          (fun p => worstCaseScore tie_result <? score p + potentialPoints tie_result) tie_players.
Proof.
  split; [vm_compute; reflexivity|].
  apply (calculateWhatIf_rank_counts tie_me tie_players (Some [open_answer])).
  vm_compute. reflexivity.
Defined.

Lemma calculateWhatIf_scores_witness :
  calculateWhatIf (Some tie_me) (Some tie_players) (Some [open_answer]) = Ret (Some tie_result) /\
  potentialPoints tie_result = Z.of_nat (length (List.filter unresolved [open_answer])) /\
  unansweredCount tie_result = potentialPoints tie_result /\
  currentScore tie_result = score tie_me /\
  bestCaseScore tie_result = score tie_me + potentialPoints tie_result /\
  worstCaseScore tie_result = currentScore tie_result.
Proof.
  split; [vm_compute; reflexivity|].
  apply (calculateWhatIf_scores tie_me tie_players [open_answer]).
  vm_compute. reflexivity.
Defined.

Lemma calculateWhatIf_rank_order_witness :
  calculateWhatIf (Some tie_me) (Some tie_players) (Some [open_answer]) = Ret (Some tie_result) /\
  bestCaseRank tie_result <= currentRank tie_result <= worstCaseRank tie_result.
Proof.
  split; [vm_compute; reflexivity|].
  apply (calculateWhatIf_rank_order tie_me tie_players (Some [open_answer])).
  vm_compute. reflexivity.
Defined.

Lemma calculateWhatIf_rank_bounds_witness :
  calculateWhatIf (Some tie_me) (Some tie_players) (Some [open_answer]) = Ret (Some tie_result) /\
  totalPlayers tie_result = 2 /\
  Forall (fun k => 1 <= k <= 1 + count_others tie_me (fun _ => true) tie_players)
    [currentRank tie_result; bestCaseRank tie_result; worstCaseRank tie_result] /\
  (email tie_me ∈ map email tie_players ->
   Forall (fun k => k <= totalPlayers tie_result)
     [currentRank tie_result; bestCaseRank tie_result; worstCaseRank tie_result]) /\
  Forall (fun k => k <= totalPlayers tie_result + 1)
    [currentRank tie_result; bestCaseRank tie_result; worstCaseRank tie_result].
Proof.
  split; [vm_compute; reflexivity|].
  apply (calculateWhatIf_rank_bounds tie_me tie_players (Some [open_answer])).
  vm_compute. reflexivity.
Defined.

Lemma computeRanks_empty_and_all_tied_witness :
  [pl "a" 3; pl "b" 3] <> [] /\ Forall (fun p => score p = 3) [pl "a" 3; pl "b" 3] /\
  computeRanks [pl "a" 3; pl "b" 3] = [(3, mkRankEntry 1 2)].
Proof.
  split; [discriminate|]. split; [repeat constructor|].
  apply (proj2 computeRanks_empty_and_all_tied [pl "a" 3; pl "b" 3] 3);
    [discriminate|repeat constructor].
Defined.

Lemma computeRanks_score_multiset_witness :
  map score [pl "a" 10; pl "b" 8] ≡ₚ map score [pl "c" 8; pl "d" 10] /\
  computeRanks [pl "a" 10; pl "b" 8] = computeRanks [pl "c" 8; pl "d" 10].
Proof.
  split; [simpl; apply perm_swap|].
  apply computeRanks_score_multiset. simpl. apply perm_swap.
Defined.

Lemma ranks_and_whatIf_total_witness :
  5 ∈ uniqueScores_of [pl "a" 10; pl "b" 5] /\
  scoreCounts_of [pl "a" 10; pl "b" 5] !! 5 = Some (count_where (Z.eqb 5) [pl "a" 10; pl "b" 5]) /\
  calculateWhatIf None (Some [pl "a" 10]) None <> Throw /\
  null_case None [pl "a" 10] None.
Proof.
  assert (5 ∈ uniqueScores_of [pl "a" 10; pl "b" 5]) as Hin
    by (apply (bool_decide_unpack (5 ∈ uniqueScores_of [pl "a" 10; pl "b" 5])); vm_compute; exact I).
  split; [exact Hin|]. split; [apply (proj1 ranks_and_whatIf_total); exact Hin|].
  split; [apply (proj2 ranks_and_whatIf_total)|].
  apply (proj2 ranks_and_whatIf_total None [pl "a" 10] None). reflexivity.
Defined.

(** ** Further code: the update channel, rows, questions, time labels,
    PKCE encoding, answer loading and storage *)

Module Extras.

Lemma onmessage_events_bound raw (st : view) :
  (length (events_st st) <= 20)%nat -> (length (events_st (onmessage raw st)) <= 20)%nat.
Proof.
  intros H. unfold onmessage. destruct raw as [data|]; [|done].
  case_decide; [|done]. unfold handleWebSocketMessage. cbn [events_st].
  destruct (msg_events data) as [[|e es]|]; [done| |done].
  rewrite length_take. lia.
Qed.

(** The activity feed never holds more than 20 events: starting from at
    most 20, any sequence of channel messages keeps it at most 20. *)
Theorem activity_feed_bounded (raws : list (option message)) (st : view) :
  (length (events_st st) <= 20)%nat ->
  (length (events_st (onmessages raws st)) <= 20)%nat.
Proof.
  unfold onmessages. revert st.
  induction raws as [|r rs IH]; intros st H; simpl; [done|].
  apply IH, onmessage_events_bound, H.
Qed.



(** Every leaderboard row takes its rank from the rank map: the fallback
    [idx + 1] is never used.  A row shows 1 plus the number of players with
    a higher score, prefixed "T-" exactly when another player has the same
    score. *)
Theorem row_label_from_ranks (players : list player) (p : player) (idx : Z) :
  p ∈ players ->
  row_label players p idx =
  (let r := 1 + count_where (fun x => score p <? x) players in
   if 1 <? count_where (Z.eqb (score p)) players then TiedRank r else PlainRank r).
Proof.
  intros Hp. unfold row_label, row_rank, row_tieCount.
  rewrite computeRanks_lookup, bool_decide_eq_true_2; [done|].
  apply list_elem_of_In, in_map, list_elem_of_In. done.
Qed.

(** The hero card: the player it shows is a listed player with the
    selected email; its rank is 1 plus the number of higher scores (the
    rank of that player's row, whatever its position) and its tie count the
    number of players at that score.  When no listed player has the email
    (or no email is selected), the rank is null and the tie count 1. *)
Theorem hero_rank_agrees (players : list player) (sel : option string) :
  (forall p, find_selected players sel = Some p ->
     p ∈ players /\ sel = Some (email p) /\
     selectedRank players sel = Some (1 + count_where (fun x => score p <? x) players) /\
     selectedTieCount players sel = count_where (Z.eqb (score p)) players /\
     (forall idx, selectedRank players sel = Some (row_rank (computeRanks players) p idx))) /\
  (find_selected players sel = None ->
     selectedRank players sel = None /\ selectedTieCount players sel = 1).
Proof.
  unfold selectedRank, selectedTieCount, selectedRankInfo. split.
  - intros p Hf. rewrite Hf.
    assert (p ∈ players /\ sel = Some (email p)) as [Hin He].
    { destruct sel as [e|]; [|discriminate]. simpl in Hf.
      apply find_some in Hf as [Hin He]. apply String.eqb_eq in He as ->.
      split; [by apply list_elem_of_In|done]. }
    assert (score p ∈ map score players) as Hs
      by (apply list_elem_of_In, in_map, list_elem_of_In; done).
    unfold row_rank. rewrite computeRanks_lookup, bool_decide_eq_true_2 by done.
    simpl. repeat split; done.
  - intros Hf. by rewrite Hf.
Qed.

Lemma insert_updated_perm x (l : list question) : insert_updated x l ≡ₚ x :: l.
Proof.
  induction l as [|y l IH]; simpl; [done|].
  destruct (0 <? _); [done|]. rewrite IH. apply perm_swap.
Qed.

Lemma sort_updated_perm (qs : list question) : sort_updated qs ≡ₚ qs.
Proof.
  unfold sort_updated.
  assert (forall acc, foldl (fun acc q => insert_updated q acc) acc qs ≡ₚ qs ++ acc) as H.
  { induction qs as [|q qs IH]; intros acc; simpl; [done|].
    rewrite IH, insert_updated_perm. by rewrite <- Permutation_middle. }
  rewrite H. by rewrite app_nil_r.
Qed.

Lemma insert_updated_hd y x (l : list question) :
  HdRel newer_or_same y l -> newer_or_same y x -> HdRel newer_or_same y (insert_updated x l).
Proof.
  intros Hh Hyx. destruct l as [|z l]; simpl; [by apply HdRel_cons|].
  destruct (0 <? _); [by apply HdRel_cons|]. inversion Hh; by apply HdRel_cons.
Qed.

Lemma insert_updated_sorted x (l : list question) :
  Sorted newer_or_same l -> Sorted newer_or_same (insert_updated x l).
Proof.
  induction 1 as [|y l Hl IH Hh]; simpl; [by repeat constructor|].
  destruct (Z.ltb_spec 0 (updated x - updated y)).
  - constructor; [by constructor|]. constructor. unfold newer_or_same. lia.
  - constructor; [done|]. apply insert_updated_hd; [done|]. unfold newer_or_same. lia.
Qed.

Lemma sort_updated_sorted (qs : list question) :
  StronglySorted newer_or_same (sort_updated qs).
Proof.
  apply Sorted_StronglySorted; [intros a b c; unfold newer_or_same; lia|].
  unfold sort_updated.
  assert (forall acc, Sorted newer_or_same acc ->
            Sorted newer_or_same (foldl (fun acc q => insert_updated q acc) acc qs)) as H.
  { induction qs as [|q qs IH]; intros acc Hacc; simpl; [done|].
    by apply IH, insert_updated_sorted. }
  by apply H.
Qed.

Lemma StronglySorted_app_rel {A} (R : A -> A -> Prop) (l1 l2 : list A) x y :
  StronglySorted R (l1 ++ l2) -> x ∈ l1 -> y ∈ l2 -> R x y.
Proof.
  induction l1 as [|z l1 IH]; simpl; intros Hs Hx Hy; [inversion Hx|].
  inversion Hs as [|? ? Hs' Hall]; subst.
  apply elem_of_cons in Hx as [->|Hx]; [|by apply IH].
  rewrite Forall_forall in Hall. apply Hall, elem_of_app. by right.
Qed.

(** The latest-questions panel: it shows [min 10 n] questions, [n] being the
    number of answered ones; each shown question is an answered question of
    the list; they are ordered newest first. *)
Theorem sortedQuestions_shape (latest : list question) :
  length (sortedQuestions latest) =
    Nat.min 10 (length (List.filter (fun q => truthy (q_answer q)) latest)) /\
  (forall q, q ∈ sortedQuestions latest -> q ∈ latest /\ truthy (q_answer q) = true) /\
  StronglySorted newer_or_same (sortedQuestions latest).
Proof.
  unfold sortedQuestions. set (f := fun q => truthy (q_answer q)).
  split; [|split].
  - rewrite length_take, (Permutation_length (sort_updated_perm _)). lia.
  - intros q Hq. apply elem_of_take in Hq as (i & Hi & _).
    apply list_elem_of_lookup_2 in Hi.
    rewrite (sort_updated_perm _), list_elem_of_In, filter_In in Hi.
    destruct Hi as [Hi Hf]. split; [by apply list_elem_of_In|done].
  - pose proof (sort_updated_sorted (List.filter f latest)) as Hs.
    rewrite <- (take_drop 10 (sort_updated _)) in Hs.
    induction (take 10 (sort_updated (List.filter f latest))) as [|z l IH]; simpl in *;
      [constructor|].
    inversion Hs as [|? ? Hs' Hall]; subst. constructor; [by apply IH|].
    apply Forall_forall. intros w Hw. rewrite Forall_forall in Hall. apply Hall, elem_of_app. by left.
Qed.

(** An answered question is left out of the panel only when the panel is
    full (10 questions) and every shown question is at least as recent. *)
Theorem sortedQuestions_top10 (latest : list question) (q : question) :
  q ∈ latest -> truthy (q_answer q) = true -> q ∉ sortedQuestions latest ->
  length (sortedQuestions latest) = 10%nat /\
  (forall q', q' ∈ sortedQuestions latest -> updated q <= updated q').
Proof.
  intros Hin Ha Hout. unfold sortedQuestions in *.
  set (s := sort_updated (List.filter (fun q => truthy (q_answer q)) latest)) in *.
  assert (q ∈ s) as Hs.
  { unfold s. rewrite (sort_updated_perm _), list_elem_of_In, filter_In.
    split; [by apply list_elem_of_In|done]. }
  assert (q ∈ drop 10 s) as Hd.
  { rewrite <- (take_drop 10 s) in Hs. apply elem_of_app in Hs as [Hs|Hs]; [done|done]. }
  split.
  - rewrite length_take. destruct (drop 10 s) eqn:E; [inversion Hd|].
    assert (length (drop 10 s) <> 0%nat) as Hl by (rewrite E; done).
    rewrite length_drop in Hl. lia.
  - intros q' Hq'. pose proof (sort_updated_sorted (List.filter (fun q => truthy (q_answer q)) latest)) as Ss.
    fold s in Ss. rewrite <- (take_drop 10 s) in Ss.
    exact (StronglySorted_app_rel _ _ _ q' q Ss Hq' Hd).
Qed.

(** Witnesses. *)

Lemma activity_feed_bounded_witness :
  (length (events_st (onmessages [Some (upd (map ev (seqZ 10 15))); None;
                                  Some (upd (map ev (seqZ 30 12)))] st0)) <= 20)%nat.
Proof. apply activity_feed_bounded. simpl. lia. Defined.


Lemma row_label_from_ranks_witness :
  row_label [pl "a" 10; pl "b" 8; pl "c" 8] (pl "c" 8) 2 = TiedRank 2.
Proof.
  rewrite (row_label_from_ranks [pl "a" 10; pl "b" 8; pl "c" 8] (pl "c" 8) 2);
    [reflexivity|].
  apply list_elem_of_In. simpl. tauto.
Defined.

Lemma sortedQuestions_top10_witness :
  length (sortedQuestions (map qn (seqZ 1 11))) = 10%nat /\
  (forall q', q' ∈ sortedQuestions (map qn (seqZ 1 11)) -> 1 <= updated q').
Proof.
  apply (sortedQuestions_top10 (map qn (seqZ 1 11)) (qn 1)).
  - apply list_elem_of_In. simpl. tauto.
  - reflexivity.
  - rewrite list_elem_of_In. vm_compute. intuition discriminate.
Defined.

(** ** Time labels *)

(** [lia] with the quotient-remainder facts of the divisions in the goal. *)
Ltac div_lia :=
  repeat match goal with
  | |- context [?x / ?c] =>
    lazymatch goal with _ : x = c * (x / c) + x mod c |- _ => fail | _ => idtac end;
    pose proof (Z.div_mod x c ltac:(lia)); pose proof (Z.mod_pos_bound x c ltac:(lia))
  end; lia.

(** Each label of a timestamp: "just now" exactly for ages (in whole
    seconds) under a minute, future timestamps included; otherwise [n]
    minutes with [1 <= n <= 59], [n] hours with [1 <= n <= 23] or [n >= 1]
    days, [n] being the age in that unit rounded down; never the empty
    label. *)
Theorem formatTimeAgo_buckets (now t : Z) :
  let diff := (now - t) / 1000 in
  formatTimeAgo now (Some t) <> NoTime /\
  (formatTimeAgo now (Some t) = JustNow <-> diff < 60) /\
  (forall n, formatTimeAgo now (Some t) = MinutesAgo n ->
     1 <= n <= 59 /\ 60 * n <= diff < 60 * (n + 1)) /\
  (forall n, formatTimeAgo now (Some t) = HoursAgo n ->
     1 <= n <= 23 /\ 3600 * n <= diff < 3600 * (n + 1)) /\
  (forall n, formatTimeAgo now (Some t) = DaysAgo n ->
     1 <= n /\ 86400 * n <= diff < 86400 * (n + 1)).
Proof.
  intros diff. unfold formatTimeAgo. fold diff. clearbody diff.
  destruct (Z.ltb_spec diff 60);
    [|destruct (Z.ltb_spec diff 3600); [|destruct (Z.ltb_spec diff 86400)]];
    repeat split; intros; try reflexivity; try discriminate;
    try match goal with H : _ = _ |- _ => first [discriminate H | injection H as <-] end;
    div_lia.
Qed.

Lemma timeAgo_seconds_some now t :
  timeAgo_seconds (formatTimeAgo now (Some t)) =
  (let d := (now - t) / 1000 in
   if d <? 60 then 0 else if d <? 3600 then 60 * (d / 60)
   else if d <? 86400 then 3600 * (d / 3600) else 86400 * (d / 86400)).
Proof.
  unfold formatTimeAgo. simpl.
  destruct (_ <? 60); [done|]. destruct (_ <? 3600); [done|].
  destruct (_ <? 86400); done.
Qed.

(** As the clock advances, the age a label shows never decreases. *)
Theorem formatTimeAgo_monotone (now1 now2 : Z) (ts : option Z) :
  now1 <= now2 ->
  timeAgo_seconds (formatTimeAgo now1 ts) <= timeAgo_seconds (formatTimeAgo now2 ts).
Proof.
  intros Hle. destruct ts as [t|]; [|done].
  rewrite !timeAgo_seconds_some. cbv zeta.
  assert ((now1 - t) / 1000 <= (now2 - t) / 1000) as Hd by (apply Z.div_le_mono; lia).
  generalize dependent ((now1 - t) / 1000). generalize ((now2 - t) / 1000).
  intros d2 d1 Hd.
  pose proof (Z.div_mod d1 60 ltac:(lia)). pose proof (Z.mod_pos_bound d1 60 ltac:(lia)).
  pose proof (Z.div_mod d1 3600 ltac:(lia)). pose proof (Z.mod_pos_bound d1 3600 ltac:(lia)).
  pose proof (Z.div_mod d1 86400 ltac:(lia)). pose proof (Z.mod_pos_bound d1 86400 ltac:(lia)).
  pose proof (Z.div_mod d2 60 ltac:(lia)). pose proof (Z.mod_pos_bound d2 60 ltac:(lia)).
  pose proof (Z.div_mod d2 3600 ltac:(lia)). pose proof (Z.mod_pos_bound d2 3600 ltac:(lia)).
  pose proof (Z.div_mod d2 86400 ltac:(lia)). pose proof (Z.mod_pos_bound d2 86400 ltac:(lia)).
  destruct (Z.ltb_spec d1 60), (Z.ltb_spec d1 3600), (Z.ltb_spec d1 86400),
    (Z.ltb_spec d2 60), (Z.ltb_spec d2 3600), (Z.ltb_spec d2 86400); lia.
Qed.

(** ** Hexadecimal encoding of random bytes *)

Lemma hex_digit_spec n : 0 <= n < 16 -> hex_digit n ∈ hex_alphabet /\ hex_val (hex_digit n) = n.
Proof.
  intros H. rewrite <- (Z2Nat.id n) by lia.
  assert (Z.to_nat n < 16)%nat as Hm by lia. revert Hm. generalize (Z.to_nat n). clear.
  intros m Hm.
  do 16 (destruct m as [|m];
         [split; [apply list_elem_of_In; vm_compute; tauto|reflexivity]|]).
  lia.
Qed.

Lemma byte_digits b : 0 <= b < 256 ->
  padStart2 (byte_toString16 b) = [hex_digit (b / 16); hex_digit (b mod 16)] /\
  0 <= b / 16 < 16 /\ 0 <= b mod 16 < 16 /\ 16 * (b / 16) + b mod 16 = b.
Proof.
  intros Hb. split; [|div_lia].
  unfold byte_toString16. destruct (Z.ltb_spec b 16).
  - rewrite Z.div_small, Z.mod_small by lia. done.
  - done.
Qed.

Lemma hex_join_list (bytes : list Z) :
  list_ascii_of_string (hex_join bytes) =
  concat (map (fun b => padStart2 (byte_toString16 b)) bytes).
Proof. unfold hex_join. apply list_ascii_of_string_of_list_ascii. Qed.

(** [generateRandomString]'s encoding: for bytes in [0, 256), two lower-case
    hexadecimal digits per byte. *)
Theorem hex_join_shape (bytes : list Z) :
  Forall (fun b => 0 <= b < 256) bytes ->
  length (list_ascii_of_string (hex_join bytes)) = (2 * length bytes)%nat /\
  Forall (fun c => c ∈ hex_alphabet) (list_ascii_of_string (hex_join bytes)).
Proof.
  rewrite hex_join_list. induction 1 as [|b bytes Hb Hs IH]; simpl; [done|].
  destruct (byte_digits b Hb) as (-> & H1 & H2 & _). destruct IH as [IHl IHa].
  simpl. split; [lia|].
  constructor; [apply hex_digit_spec, H1|]. constructor; [apply hex_digit_spec, H2|]. done.
Qed.

(** The encoding loses nothing: reading the digits back in pairs gives the
    bytes again, so distinct byte arrays give distinct strings. *)
Theorem hex_join_roundtrip (bytes1 bytes2 : list Z) :
  Forall (fun b => 0 <= b < 256) bytes1 -> Forall (fun b => 0 <= b < 256) bytes2 ->
  decode_hex (list_ascii_of_string (hex_join bytes1)) = bytes1 /\
  (hex_join bytes1 = hex_join bytes2 -> bytes1 = bytes2).
Proof.
  assert (forall bytes, Forall (fun b => 0 <= b < 256) bytes ->
            decode_hex (list_ascii_of_string (hex_join bytes)) = bytes) as Hdec.
  { intros bytes. rewrite hex_join_list. induction 1 as [|b bytes Hb Hs IH]; simpl; [done|].
    destruct (byte_digits b Hb) as (-> & H1 & H2 & H3). simpl.
    rewrite IH, (proj2 (hex_digit_spec _ H1)), (proj2 (hex_digit_spec _ H2)), H3. done. }
  intros H1 H2. split; [by apply Hdec|].
  intros He. rewrite <- (Hdec bytes1 H1), <- (Hdec bytes2 H2), He. done.
Qed.

(** ** The base64url conversions of the PKCE challenge and [parseJwt] *)

Lemma has_char_remove_self a s : has_char a (remove_all a s) = false.
Proof.
  induction s as [|c s IH]; simpl; [done|].
  destruct (Ascii.eqb_spec c a); simpl; [done|].
  rewrite IH. destruct (Ascii.eqb_spec c a); done.
Qed.

Lemma has_char_remove a c s : has_char c s = false -> has_char c (remove_all a s) = false.
Proof.
  induction s as [|d s IH]; simpl; [done|].
  intros H. apply orb_false_iff in H as [Hd Hs].
  destruct (Ascii.eqb d a); simpl; [auto|]. by rewrite Hd, IH.
Qed.

Lemma has_char_replace a b c s :
  c <> b -> (c = a \/ has_char c s = false) -> has_char c (replace_all a b s) = false.
Proof.
  intros Hcb Hc. induction s as [|d s IH]; simpl; [done|].
  destruct Hc as [->|Hc].
  - rewrite IH by auto. rewrite orb_false_r. apply Ascii.eqb_neq.
    destruct (Ascii.eqb_spec d a); congruence.
  - simpl in Hc. apply orb_false_iff in Hc as [Hd Hs]. rewrite IH by auto.
    rewrite orb_false_r. apply Ascii.eqb_neq. apply Ascii.eqb_neq in Hd.
    destruct (Ascii.eqb_spec d a); congruence.
Qed.

(** A base64url string carries none of [+], [/] and [=]. *)
Theorem base64_to_url_alphabet (b64 : string) :
  has_char "+"%char (base64_to_url b64) = false /\
  has_char "/"%char (base64_to_url b64) = false /\
  has_char "="%char (base64_to_url b64) = false.
Proof.
  unfold base64_to_url. split; [|split].
  - apply has_char_remove, has_char_replace; [discriminate|right].
    apply has_char_replace; [discriminate|by left].
  - apply has_char_remove, has_char_replace; [discriminate|by left].
  - apply has_char_remove_self.
Qed.

(** [parseJwt]'s conversion undoes [base64UrlEncode]'s character mapping:
    for a base64 string (which has no [-] and no [_]), converting to
    base64url and back gives the string without its [=] padding. *)
Theorem base64url_roundtrip (b64 : string) :
  has_char "-"%char b64 = false -> has_char "_"%char b64 = false ->
  url_to_base64 (base64_to_url b64) = remove_all "="%char b64.
Proof.
  unfold url_to_base64, base64_to_url.
  induction b64 as [|c s IH]; simpl; [done|].
  intros H1 H2. apply orb_false_iff in H1 as [Hc1 H1]. apply orb_false_iff in H2 as [Hc2 H2].
  specialize (IH H1 H2).
  destruct (Ascii.eqb_spec c "+"%char) as [->|Hp]; simpl; [by rewrite IH|].
  destruct (Ascii.eqb_spec c "/"%char) as [->|Hs]; simpl; [by rewrite IH|].
  destruct (Ascii.eqb_spec c "="%char) as [->|He]; simpl; [done|].
  rewrite Hc1, Hc2, IH. done.
Qed.

(** ** Loading answers and the what-if card *)

Lemma loadAnswers_some (sel : option string) (resp : option response) (l : list answer) :
  loadAnswers sel resp = Some l ->
  exists r, resp = Some r /\ 200 <= status r <= 299 /\ body r = Some (Some l).
Proof.
  unfold loadAnswers. destruct (truthy sel); simpl; [|discriminate].
  unfold fetchUserAnswers. destruct resp as [r|]; simpl; [|discriminate].
  destruct (Z.leb_spec 200 (status r)), (Z.leb_spec (status r) 299); simpl;
    [|by destruct (status r =? 404)..].
  destruct (body r) as [d|] eqn:Hb; [|discriminate]. intros ->. exists r. split; [done|split; [lia|done]].
Qed.

(** The selected player's answers are loaded exactly when an email is
    selected (non-empty), the request succeeds with a 2xx status and the
    body parses with a truthy [answers] field; they are then that field.
    A network failure, a 404, any other status and a body that does not
    parse all leave [null]. *)
Theorem loadAnswers_some_iff (sel : option string) (resp : option response) (l : list answer) :
  loadAnswers sel resp = Some l <->
  truthy sel = true /\
  exists r, resp = Some r /\ 200 <= status r <= 299 /\ body r = Some (Some l).
Proof.
  split.
  - intros H. split; [|by apply loadAnswers_some in H].
    unfold loadAnswers in H. by destruct (truthy sel).
  - intros (Ht & r & -> & Hs & Hb). unfold loadAnswers, fetchUserAnswers. rewrite Ht. simpl.
    destruct (Z.leb_spec 200 (status r)), (Z.leb_spec (status r) 299); try lia.
    simpl. by rewrite Hb.
Qed.

Lemma find_selected_some (players : list player) (sel : option string) (p : player) :
  find_selected players sel = Some p -> p ∈ players /\ sel = Some (email p).
Proof.
  destruct sel as [e|]; [|discriminate]. simpl. intros Hf.
  apply find_some in Hf as [Hin He]. apply String.eqb_eq in He as ->.
  split; [by apply list_elem_of_In|done].
Qed.

(** The what-if card never throws (the players list is always an array);
    it shows figures only for a listed selected player whose answers came
    back with a 2xx status and include an open one. *)
Theorem whatIf_card_cases (players : list player) (sel : option string) (resp : option response) :
  whatIf_card players sel resp <> Throw /\
  (forall w, whatIf_card players sel resp = Ret (Some w) ->
   exists p answers r,
     find_selected players sel = Some p /\ p ∈ players /\ sel = Some (email p) /\
     resp = Some r /\ 200 <= status r <= 299 /\ body r = Some (Some answers) /\
     Exists (fun a => unanswered a = true) answers /\
     unansweredCount w = Z.of_nat (length (List.filter unanswered answers))).
Proof.
  unfold whatIf_card. split.
  - destruct (calculateWhatIf_cases (find_selected players sel) players (loadAnswers sel resp))
      as [_ [->|[r ->]]]; discriminate.
  - intros w Hw. destruct (find_selected players sel) as [p|] eqn:Hf; [|discriminate].
    destruct (calculateWhatIf_result p players _ w Hw) as (answers & Ha & _ & Hk & ->).
    destruct (loadAnswers_some sel resp answers Ha) as (r & -> & Hs & Hb).
    destruct (find_selected_some players sel p Hf) as [Hin He].
    exists p, answers, r. do 6 (split; [done|]). split; [|done].
    apply Exists_exists. destruct (List.filter unanswered answers) as [|a l] eqn:E;
      [simpl in Hk; lia|].
    assert (In a (List.filter unanswered answers)) as Ha' by (rewrite E; left; done).
    apply filter_In in Ha' as [Ha1 Ha2]. exists a. split; [by apply list_elem_of_In|done].
Qed.

Lemma map_inj_of_NoDup {A B} (g : A -> B) (l : list A) x y :
  NoDup (map g l) -> x ∈ l -> y ∈ l -> g x = g y -> x = y.
Proof.
  induction l as [|z l IH]; intros Hnd Hx Hy Hg; [inversion Hx|].
  simpl in Hnd. apply NoDup_cons in Hnd as [Hz Hnd].
  apply elem_of_cons in Hx as [->|Hx], Hy as [->|Hy]; try done.
  - destruct Hz. rewrite Hg. apply list_elem_of_In, in_map, list_elem_of_In; done.
  - destruct Hz. rewrite <- Hg. apply list_elem_of_In, in_map, list_elem_of_In; done.
  - by apply IH.
Qed.

Lemma count_others_cons (sp q : player) g (ps : list player) :
  count_others sp g (q :: ps) =
  (if negb (String.eqb (email q) (email sp)) && g q then 1 else 0) + count_others sp g ps.
Proof. unfold count_others. simpl. destruct (negb _ && _); simpl; lia. Qed.

Lemma count_others_le_where (sp : player) (f : Z -> bool) (ps : list player) :
  count_others sp (fun q => f (score q)) ps <= count_where f ps /\
  ((forall q, q ∈ ps -> email q = email sp -> f (score q) = false) ->
   count_others sp (fun q => f (score q)) ps = count_where f ps).
Proof.
  induction ps as [|q ps IH]; [unfold count_others; simpl; lia|].
  rewrite count_others_cons. cbn [count_where]. destruct IH as [IH1 IH2].
  split.
  - destruct (String.eqb (email q) (email sp)), (f (score q)); simpl; lia.
  - intros Hall.
    assert (forall q', q' ∈ ps -> email q' = email sp -> f (score q') = false) as Hps
      by (intros q' Hq'; apply Hall; by apply elem_of_cons; right).
    specialize (IH2 Hps).
    destruct (String.eqb_spec (email q) (email sp)) as [He|He]; simpl.
    + rewrite (Hall q) by first [apply elem_of_cons; left; done | done]. lia.
    + destruct (f (score q)); simpl; lia.
Qed.

(** The what-if card's current rank never exceeds the hero card's rank, and
    equals it when emails identify players: the card skips every player
    with the selected email, the rank map counts every higher score. *)
Theorem whatIf_card_rank_vs_hero (players : list player) (sel : option string)
    (resp : option response) (w : whatIf) :
  whatIf_card players sel resp = Ret (Some w) ->
  exists rk, selectedRank players sel = Some rk /\ currentRank w <= rk /\
    (NoDup (map email players) -> currentRank w = rk).
Proof.
  unfold whatIf_card. intros Hw.
  destruct (find_selected players sel) as [p|] eqn:Hf; [|discriminate].
  destruct (calculateWhatIf_result p players _ w Hw) as (answers & _ & _ & _ & ->).
  destruct (find_selected_some players sel p Hf) as [Hin _].
  destruct (hero_rank_agrees players sel) as [Hh _].
  destruct (Hh p Hf) as (_ & _ & Hr & _).
  exists (1 + count_where (fun x => score p <? x) players). split; [done|]. cbn [currentRank].
  rewrite rank_loop_count.
  destruct (count_others_le_where p (fun x => score p <? x) players) as [H1 H2].
  split; [lia|]. intros Hnd. rewrite H2; [done|].
  intros q Hq He. rewrite (map_inj_of_NoDup email players q p Hnd Hq Hin He). apply Z.ltb_irrefl.
Qed.

(** ** Local storage *)

Lemma foldl_delete_lookup (ks : list string) (ls : gmap string string) k :
  foldl (fun m k => delete k m) ls ks !! k = if decide (k ∈ ks) then None else ls !! k.
Proof.
  revert ls. induction ks as [|k0 ks IH]; intros ls; simpl; [done|].
  rewrite IH. destruct (decide (k = k0)) as [->|Hne].
  - rewrite lookup_delete_eq. destruct (decide (k0 ∈ ks)), (decide (k0 ∈ k0 :: ks)); set_solver.
  - rewrite lookup_delete_ne by congruence.
    destruct (decide (k ∈ ks)), (decide (k ∈ k0 :: ks)); set_solver.
Qed.

(** Signing out removes exactly the five authentication keys: every other
    entry of local storage is kept. *)
Theorem clearAuthStorage_lookup (ls : gmap string string) (k : string) :
  clearAuthStorage ls !! k = if decide (k ∈ STORAGE_KEYS) then None else ls !! k.
Proof. apply foldl_delete_lookup. Qed.

(** The selected player is remembered across reloads and survives signing
    out: selecting and signing out commute, a reload after selecting shows
    that player and clearing the selection forgets it. *)
Theorem selection_persistence (ls : gmap string string) (e : string) :
  initialSelectedEmail (handlePlayerSelect e ls) = Some e /\
  initialSelectedEmail (handleClearSelection ls) = None /\
  initialSelectedEmail (clearAuthStorage ls) = initialSelectedEmail ls /\
  clearAuthStorage (handlePlayerSelect e ls) = handlePlayerSelect e (clearAuthStorage ls).
Proof.
  unfold initialSelectedEmail, handlePlayerSelect, handleClearSelection.
  split; [apply lookup_insert_eq|]. split; [apply lookup_delete_eq|].
  split; [rewrite clearAuthStorage_lookup; by rewrite decide_False by (vm_compute; set_solver)|].
  apply map_eq. intros k. rewrite clearAuthStorage_lookup.
  destruct (decide (k = "selectedEmail"%string)) as [->|Hne].
  - rewrite decide_False by (vm_compute; set_solver). by rewrite !lookup_insert_eq.
  - rewrite !lookup_insert_ne by congruence. by rewrite clearAuthStorage_lookup.
Qed.

(** Witnesses. *)
Lemma formatTimeAgo_monotone_witness :
  timeAgo_seconds (formatTimeAgo 125000 (Some 0)) <=
  timeAgo_seconds (formatTimeAgo 7300000 (Some 0)).
Proof. apply formatTimeAgo_monotone. lia. Defined.

Lemma hex_join_shape_witness :
  length (list_ascii_of_string (hex_join [0; 15; 16; 255])) = (2 * length [0; 15; 16; 255])%nat /\
  Forall (fun c => c ∈ hex_alphabet) (list_ascii_of_string (hex_join [0; 15; 16; 255])).
Proof. apply hex_join_shape. repeat constructor; lia. Defined.

Lemma hex_join_roundtrip_witness :
  decode_hex (list_ascii_of_string (hex_join [7; 171; 255])) = [7; 171; 255] /\
  (hex_join [7; 171; 255] = hex_join [7; 171; 254] -> [7; 171; 255] = [7; 171; 254]).
Proof. apply hex_join_roundtrip; repeat constructor; lia. Defined.

Lemma base64url_roundtrip_witness :
  url_to_base64 (base64_to_url "ab+/c=="%string) = remove_all "="%char "ab+/c=="%string.
Proof. apply base64url_roundtrip; reflexivity. Defined.

Lemma whatIf_card_rank_vs_hero_witness :
  exists rk, selectedRank [pl "a" 10; pl "b" 8] (Some "b"%string) = Some rk /\
    currentRank (mkWhatIf 1 1 8 9 8 2 2 2 2) <= rk /\
    (NoDup (map email [pl "a" 10; pl "b" 8]) -> currentRank (mkWhatIf 1 1 8 9 8 2 2 2 2) = rk).
Proof.
  apply (whatIf_card_rank_vs_hero [pl "a" 10; pl "b" 8] (Some "b"%string) (Some answers_ok)).
  vm_compute. reflexivity.
Defined.

End Extras.
